(* ===================================================================== *)
(* TicTacToeApp: the game logic of src/App.tsx, embedded and verified.    *)
(*                                                                        *)
(* The component keeps three pieces of state (board, isXNext,             *)
(* winningCells); winner, isDraw and gameOver are recomputed from the     *)
(* board at every render.  handlePress and resetGame are the only         *)
(* transitions.  The board is a JavaScript array, so reads and writes     *)
(* outside 0..8 are modelled the way JavaScript performs them.            *)
(* ===================================================================== *)

From stdpp Require Import base decidable option list gmap strings.
From Stdlib Require Import ZArith Lia.

Local Open Scope Z_scope.

(* --------------------------------------------------------------------- *)
(* Types                                                                  *)
(* --------------------------------------------------------------------- *)

(* type Player = 'X' | 'O' *)
Inductive Player : Type := X | O.

Global Instance Player_eq_dec : EqDecision Player.
Proof. solve_decision. Defined.

(* type Cell = Player | null.  At run time an indexed read can also give
   undefined (a read past the end, or a slot a far write left unfilled),
   so the values a board slot can produce are these three.  A hole and a
   stored undefined are not told apart: both read as undefined, `every`
   skips the first and accepts the second (undefined !== null), and the
   spread [...board] turns the first into the second. *)
Inductive JSValue : Type :=
  | JNull
  | JUndefined
  | JMark (p : Player).

Global Instance JSValue_eq_dec : EqDecision JSValue.
Proof. solve_decision. Defined.
Global Arguments JSValue_eq_dec : simpl never.

Module JS.

(* An array object: its indexed elements 0 .. length-1, and the own
   properties whose integer key is not an array index (a negative key,
   or one past 2^32 - 2); writing such a key leaves length alone. *)
Record array : Type := mkArray {
  elems : list JSValue;
  props : gmap Z JSValue
}.

Definition is_array_index (i : Z) : bool :=
  bool_decide (0 <= i < 2 ^ 32 - 1).

Definition length (a : array) : Z := Z.of_nat (List.length (elems a)).

(* a[i] *)
Definition get (a : array) (i : Z) : JSValue :=
  if is_array_index i
  then default JUndefined (elems a !! Z.to_nat i)
  else default JUndefined (props a !! i).

(* [...a] : a fresh array with the indexed elements only *)
Definition spread (a : array) : array :=
  mkArray (elems a) ∅.

(* a[i] = v : in range it overwrites, past the end it extends the array
   up to i, and a key that is no array index becomes a plain property *)
Definition set (a : array) (i : Z) (v : JSValue) : array :=
  if is_array_index i then
    if bool_decide (i < length a)
    then mkArray (<[Z.to_nat i := v]> (elems a)) (props a)
    else mkArray (elems a ++ replicate (Z.to_nat i - List.length (elems a)) JUndefined ++ [v])
                 (props a)
  else mkArray (elems a) (<[i := v]> (props a)).

(* truthiness of a slot value: the two markers are non-empty strings *)
Definition truthy (v : JSValue) : bool :=
  match v with
  | JMark _ => true
  | JNull | JUndefined => false
  end.

(* v === w *)
Definition strict_eq (v w : JSValue) : bool := bool_decide (v = w).

(* a.every(p) *)
Definition every (p : JSValue -> bool) (a : array) : bool :=
  forallb p (elems a).

End JS.

(* type Board = [Cell, Cell, Cell, Cell, Cell, Cell, Cell, Cell, Cell] *)
Abbreviation Board := JS.array.

(* `board[a] as Player`, and Player | null as an option *)
Definition as_player (v : JSValue) : option Player :=
  match v with
  | JMark p => Some p
  | _ => None
  end.

(* --------------------------------------------------------------------- *)
(* Constants                                                              *)
(* --------------------------------------------------------------------- *)

Definition WINNING_LINES : list (Z * Z * Z) :=
  [ (0, 1, 2);   (* rows *)
    (3, 4, 5);
    (6, 7, 8);
    (0, 3, 6);   (* cols *)
    (1, 4, 7);
    (2, 5, 8);
    (0, 4, 8);   (* diagonals *)
    (2, 4, 6) ].

Definition EMPTY_BOARD : Board :=
  JS.mkArray [JNull; JNull; JNull; JNull; JNull; JNull; JNull; JNull; JNull] ∅.

(* --------------------------------------------------------------------- *)
(* Helpers                                                                *)
(* --------------------------------------------------------------------- *)

(* The test of the `if` inside calculateWinner's loop. *)
Definition line_test (board : Board) (l : Z * Z * Z) : bool :=
  let '(a, b, c) := l in
  JS.truthy (JS.get board a)
  && JS.strict_eq (JS.get board a) (JS.get board b)
  && JS.strict_eq (JS.get board a) (JS.get board c).

(* for (const [a, b, c] of lines) { if (...) return board[a]; } return null *)
Fixpoint calculateWinner_loop (lines : list (Z * Z * Z)) (board : Board)
  : option Player :=
  match lines with
  | [] => None
  | l :: rest =>
      if line_test board l
      then as_player (JS.get board (fst (fst l)))
      else calculateWinner_loop rest board
  end.

Definition calculateWinner (board : Board) : option Player :=
  calculateWinner_loop WINNING_LINES board.

Definition isBoardFull (board : Board) : bool :=
  JS.every (fun cell => negb (JS.strict_eq cell JNull)) board.

(* --------------------------------------------------------------------- *)
(* Component state and its transitions                                    *)
(* --------------------------------------------------------------------- *)

(* The three useState cells of App. *)
Record GameState : Type := mkState {
  board : Board;
  isXNext : bool;
  winningCells : list Z
}.

(* Values derived from the board at each render. *)
Definition winner (s : GameState) : option Player := calculateWinner (board s).

Definition isDraw (s : GameState) : bool :=
  negb (bool_decide (is_Some (winner s))) && isBoardFull (board s).

Definition gameOver (s : GameState) : bool :=
  bool_decide (is_Some (winner s)) || isDraw s.

(* isXNext ? 'X' : 'O' *)
Definition nextPlayer (s : GameState) : Player :=
  if isXNext s then X else O.

Definition other (p : Player) : Player :=
  match p with X => O | O => X end.

(* The callback of WINNING_LINES.find in handlePress. *)
Definition line_of (next : Board) (newWinner : Player) (l : Z * Z * Z) : bool :=
  let '(a, b, c) := l in
  JS.strict_eq (JS.get next a) (JMark newWinner)
  && JS.strict_eq (JS.get next b) (JMark newWinner)
  && JS.strict_eq (JS.get next c) (JMark newWinner).

(* line ?? [] *)
Definition line_or_empty (line : option (Z * Z * Z)) : list Z :=
  match line with
  | Some (a, b, c) => [a; b; c]
  | None => []
  end.

(* handlePress, as the state the next render sees.  One call is one
   transition: the closure reads the board of the render it belongs to. *)
Definition handlePress (s : GameState) (index : Z) : GameState :=
  if gameOver s || JS.truthy (JS.get (board s) index) then s
  else
    let next := JS.set (JS.spread (board s)) index (JMark (nextPlayer s)) in
    let newWinner := calculateWinner next in
    let cells :=
      match newWinner with
      | Some w => line_or_empty (List.find (line_of next w) WINNING_LINES)
      | None => winningCells s
      end in
    mkState next (negb (isXNext s)) cells.

Definition resetGame (s : GameState) : GameState :=
  mkState EMPTY_BOARD true [].

(* The state App starts from: the initial values of the three hooks. *)
Definition initialState : GameState := mkState EMPTY_BOARD true [].

(* Playing a sequence of taps from a state. *)
Definition play (s : GameState) (taps : list Z) : GameState :=
  fold_left handlePress taps s.

(* --------------------------------------------------------------------- *)
(* Vocabulary of the specification                                        *)
(* --------------------------------------------------------------------- *)

(* All three cells of the line hold the marker p. *)
Definition holds (b : Board) (l : Z * Z * Z) (p : Player) : Prop :=
  let '(i, j, k) := l in
  JS.get b i = JMark p ∧ JS.get b j = JMark p ∧ JS.get b k = JMark p.

(* The line is complete: its cells hold one and the same marker. *)
Definition complete (b : Board) (l : Z * Z * Z) : Prop :=
  ∃ p, holds b l p.

(* The index is one of the three of the line. *)
Definition on_line (i : Z) (l : Z * Z * Z) : Prop :=
  let '(a, b, c) := l in i = a ∨ i = b ∨ i = c.

Definition in_range (i : Z) : Prop := 0 <= i <= 8.

(* A value of the TypeScript type Board: nine slots, each null or a
   marker, and no property besides the nine. *)
Definition well_typed (b : Board) : Prop :=
  List.length (JS.elems b) = 9%nat
  ∧ Forall (λ c, c ≠ JUndefined) (JS.elems b)
  ∧ JS.props b = ∅.

(* States reachable by taps on the nine cells and presses of NEW GAME. *)
Inductive reachable : GameState → Prop :=
  | reach_init : reachable initialState
  | reach_press s i : reachable s → in_range i → reachable (handlePress s i)
  | reach_reset s : reachable s → reachable (resetGame s).

(* The same with handlePress called on any integer whatever. *)
Inductive reachable_any : GameState → Prop :=
  | reach_any_init : reachable_any initialState
  | reach_any_press s i : reachable_any s → reachable_any (handlePress s i)
  | reach_any_reset s : reachable_any s → reachable_any (resetGame s).

(* What the stored winningCells have to do with the winner on display. *)
Definition cells_match_winner (s : GameState) : Prop :=
  match winner s with
  | Some p => ∃ l, l ∈ WINNING_LINES
                   ∧ winningCells s = line_or_empty (Some l)
                   ∧ holds (board s) l p
  | None => winningCells s = []
  end.

(* How many cells of the board hold the marker p. *)
Definition marks (p : Player) (b : Board) : nat :=
  count_occ JSValue_eq_dec (JS.elems b) (JMark p).

(* The lines of WINNING_LINES that are complete on the board, in scan
   order. *)
Definition completed (b : Board) : list (Z * Z * Z) :=
  List.filter (line_test b) WINNING_LINES.

(* X moves first and the players take turns: X is level with O when X is
   to move and one ahead when O is. *)
Definition turns_alternate (s : GameState) : Prop :=
  well_typed (board s)
  ∧ marks X (board s) = (marks O (board s) + (if isXNext s then 0 else 1))%nat.

(* Where the marker p sits, as a list of booleans, and the lines read
   on such a list. *)
Definition mask (p : Player) (cells : list JSValue) : list bool :=
  map (λ c, JS.strict_eq c (JMark p)) cells.

Definition mask_line (m : list bool) (l : Z * Z * Z) : bool :=
  let '(i, j, k) := l in
  nth (Z.to_nat i) m false && nth (Z.to_nat j) m false && nth (Z.to_nat k) m false.

Fixpoint masks (n : nat) : list (list bool) :=
  match n with
  | 0%nat => [[]]
  | S n' => map (cons true) (masks n') ++ map (cons false) (masks n')
  end.

(* With five cells or fewer, at most two lines are covered. *)
Definition few_cells_few_lines (m : list bool) : bool :=
  (5 <? count_occ bool_dec m true)%nat
  || (List.length (List.filter (mask_line m) WINNING_LINES) <=? 2)%nat.

(* --------------------------------------------------------------------- *)
(* Rendering: the GameCell component and the status line of App           *)
(* --------------------------------------------------------------------- *)

(* The entries of COLORS that the cells and the status line use. *)
Module COLORS.
Definition cyan : string := "#00FFFF".
Definition magenta : string := "#FF00FF".
Definition yellow : string := "#FFE600".
End COLORS.

Module View.

(* interface CellProps; onPress is always handlePress and is left out *)
Record CellProps : Type := mkCellProps {
  value : JSValue;
  index : Z;
  disabled : bool;
  isWinning : bool
}.

(* What GameCell draws from its props: whether styles.cellWinning is
   applied, the index its onPress hands on, the disabled flag of the
   TouchableOpacity, and the colour and content of the Text. *)
Record CellView : Type := mkCellView {
  cellWinning : bool;
  pressIndex : Z;
  touchDisabled : bool;
  textColor : string;
  text : string
}.

(* value === 'X' ? COLORS.magenta : value === 'O' ? COLORS.cyan : 'transparent' *)
Definition color (value : JSValue) : string :=
  if JS.strict_eq value (JMark X) then COLORS.magenta
  else if JS.strict_eq value (JMark O) then COLORS.cyan
  else "transparent".

(* a marker as the string it is *)
Definition marker (p : Player) : string :=
  match p with X => "X" | O => "O" end.

(* value ?? '' *)
Definition content (value : JSValue) : string :=
  match value with
  | JMark p => marker p
  | JNull | JUndefined => ""
  end.

Definition GameCell (props : CellProps) : CellView :=
  mkCellView (isWinning props)
             (index props)
             (disabled props || negb (JS.strict_eq (value props) JNull))
             (color (value props))
             (content (value props)).

(* winningCells.includes(i) *)
Definition includes (l : list Z) (i : Z) : bool := existsb (Z.eqb i) l.

(* The callback of board.map in App: the props of the cell at index i. *)
Definition cellProps (s : GameState) (cell : JSValue) (i : Z) : CellProps :=
  mkCellProps cell i (gameOver s) (includes (winningCells s) i).

(* The status message of App. *)
Definition statusText (s : GameState) : string :=
  match winner s with
  | Some w => "** PLAYER " +:+ marker w +:+ " WINS! **"
  | None =>
      if isDraw s then "** DRAW — INSERT COIN **"
      else "PLAYER " +:+ (if isXNext s then "X" else "O") +:+ " — YOUR TURN"
  end.

Definition statusColor (s : GameState) : string :=
  match winner s with
  | Some w => if bool_decide (w = X) then COLORS.magenta else COLORS.cyan
  | None =>
      if isDraw s then COLORS.yellow
      else if isXNext s then COLORS.magenta else COLORS.cyan
  end.

End View.

(* --------------------------------------------------------------------- *)
(* The two players exchanged                                              *)
(* --------------------------------------------------------------------- *)

Definition swap_value (v : JSValue) : JSValue :=
  match v with
  | JMark p => JMark (other p)
  | JNull | JUndefined => v
  end.

Definition swap_board (b : Board) : Board :=
  JS.mkArray (swap_value <$> JS.elems b) (swap_value <$> JS.props b).

Definition swap_state (s : GameState) : GameState :=
  mkState (swap_board (board s)) (negb (isXNext s)) (winningCells s).

(* ===================================================================== *)
(* Theorems                                                               *)
(* ===================================================================== *)

(* Closed goals about concrete games are settled by evaluation. *)
Ltac evaluate := vm_compute; first [reflexivity | discriminate | done].

Section JSFacts.

Lemma truthy_mark v : JS.truthy v = true ↔ ∃ p, v = JMark p.
Proof.
  destruct v; simpl; split; try discriminate; eauto.
  - intros [? ?]; discriminate.
  - intros [? ?]; discriminate.
Qed.

Lemma strict_eq_true v w : JS.strict_eq v w = true ↔ v = w.
Proof. unfold JS.strict_eq. apply bool_decide_eq_true. Qed.

Lemma strict_eq_false v w : JS.strict_eq v w = false ↔ v ≠ w.
Proof. unfold JS.strict_eq. apply bool_decide_eq_false. Qed.

End JSFacts.

Section Lines.

Variable b : Board.

Lemma line_test_true l :
  line_test b l = true ↔ complete b l.
Proof.
  destruct l as [[i j] k]. unfold line_test, complete, holds.
  rewrite !andb_true_iff, !strict_eq_true, truthy_mark. split.
  - intros [[[p Hp] Hj] Hk]. exists p. rewrite <- Hj, <- Hk. auto.
  - intros [p (Hi & Hj & Hk)]. rewrite Hi, Hj, Hk. eauto.
Qed.

Lemma line_test_false l :
  line_test b l = false ↔ ∀ q, ¬ holds b l q.
Proof.
  rewrite <- not_true_iff_false, line_test_true. unfold complete.
  split; [intros H q Hq; eauto | intros H [q Hq]; exact (H q Hq)].
Qed.

Lemma line_test_marker l p :
  line_test b l = true →
  as_player (JS.get b (fst (fst l))) = Some p ↔ holds b l p.
Proof.
  intros [q Hq]%line_test_true. destruct l as [[i j] k]. simpl in *.
  destruct Hq as (Hi & Hj & Hk). rewrite Hi. simpl. split.
  - intros [= <-]. rewrite Hj, Hk. auto.
  - intros (Hi' & _). congruence.
Qed.

Lemma line_of_true w l : line_of b w l = true ↔ holds b l w.
Proof.
  destruct l as [[i j] k]. unfold line_of, holds.
  rewrite !andb_true_iff, !strict_eq_true. tauto.
Qed.

(* The loop returns p exactly when the list of lines splits at a first
   complete line, whose cells hold p. *)
Lemma calculateWinner_loop_Some lines p :
  calculateWinner_loop lines b = Some p ↔
  ∃ pre l post, lines = pre ++ l :: post ∧ holds b l p
                ∧ Forall (λ l', ¬ complete b l') pre.
Proof.
  induction lines as [|l0 rest IH]; simpl.
  - split; [discriminate | intros (pre & l & post & E & _)].
    destruct pre; discriminate.
  - destruct (line_test b l0) eqn:T.
    + rewrite (line_test_marker _ _ T). split.
      * intros H. exists [], l0, rest. auto.
      * intros (pre & l & post & E & Hl & Hpre).
        destruct pre as [|l1 pre]; simpl in E; injection E as -> ->; [done|].
        apply Forall_cons in Hpre as [Hc _].
        apply line_test_true in T. contradiction.
    + rewrite IH. split.
      * intros (pre & l & post & -> & Hl & Hpre).
        exists (l0 :: pre), l, post. split_and!; [done..|].
        constructor; [|done]. rewrite <- line_test_true. congruence.
      * intros (pre & l & post & E & Hl & Hpre).
        destruct pre as [|l1 pre]; simpl in E; injection E as -> ->.
        -- assert (line_test b l = true) by (apply line_test_true; exists p; done).
           congruence.
        -- apply Forall_cons in Hpre as [_ Hpre]. eauto 6.
Qed.

Lemma calculateWinner_loop_None lines :
  calculateWinner_loop lines b = None ↔ Forall (λ l, ¬ complete b l) lines.
Proof.
  induction lines as [|l0 rest IH]; simpl.
  - split; auto.
  - destruct (line_test b l0) eqn:T.
    + split.
      * intros H. apply line_test_true in T as [p Hp].
        apply (line_test_marker l0 p) in Hp as Hp'; [congruence|].
        apply line_test_true. by exists p.
      * intros [Hc _]%Forall_cons. apply line_test_true in T. contradiction.
    + rewrite IH, Forall_cons. rewrite <- line_test_true. split; [|tauto].
      intros H; split; [congruence|done].
Qed.

End Lines.

(** C1: calculateWinner scans the eight canonical lines in the order
    rows 0-1-2, 3-4-5, 6-7-8, columns 0-3-6, 1-4-7, 2-5-8, diagonals
    0-4-8, 2-4-6.  It returns the marker p exactly when the list splits at
    a line whose three cells hold p and that no complete line precedes;
    it returns none exactly when no line of the list is complete. *)
Theorem calculateWinner_first_complete_line :
  WINNING_LINES =
    [(0, 1, 2); (3, 4, 5); (6, 7, 8); (0, 3, 6); (1, 4, 7); (2, 5, 8);
     (0, 4, 8); (2, 4, 6)]
  ∧ ∀ board : Board,
      (∀ p, calculateWinner board = Some p ↔
            ∃ pre l post, WINNING_LINES = pre ++ l :: post
                          ∧ holds board l p
                          ∧ ∀ l', l' ∈ pre → ¬ complete board l')
      ∧ (calculateWinner board = None ↔
         ∀ l, l ∈ WINNING_LINES → ¬ complete board l).
Proof.
  split; [reflexivity|]. intros bd. split.
  - intros p. unfold calculateWinner. rewrite calculateWinner_loop_Some.
    by setoid_rewrite Forall_forall.
  - unfold calculateWinner. rewrite calculateWinner_loop_None.
    by rewrite Forall_forall.
Qed.

Section ArrayFacts.

Lemma in_range_array_index i : in_range i → JS.is_array_index i = true.
Proof. unfold in_range, JS.is_array_index. intros H. apply bool_decide_eq_true. lia. Qed.

Lemma get_spread a j :
  JS.is_array_index j = true → JS.get (JS.spread a) j = JS.get a j.
Proof. unfold JS.get, JS.spread. intros ->. reflexivity. Qed.

Lemma elems_spread a : JS.elems (JS.spread a) = JS.elems a.
Proof. reflexivity. Qed.

(* Reading back the slot just written. *)
Lemma get_set_eq a i v : JS.get (JS.set a i v) i = v.
Proof.
  unfold JS.get, JS.set, JS.length.
  destruct (JS.is_array_index i) eqn:Hi.
  - apply bool_decide_eq_true in Hi. case_bool_decide as Hlt; simpl.
    + rewrite list_lookup_insert_eq by lia. reflexivity.
    + rewrite lookup_app_r by lia. rewrite lookup_app_r; rewrite length_replicate; [|lia].
      replace (_ - _ - _)%nat with 0%nat by lia. reflexivity.
  - simpl. by rewrite lookup_insert_eq.
Qed.

(* Every other slot reads as before. *)
Lemma get_set_ne a i j v : i ≠ j → JS.get (JS.set a i v) j = JS.get a j.
Proof.
  intros Hne. unfold JS.get, JS.set, JS.length.
  destruct (JS.is_array_index i) eqn:Hi, (JS.is_array_index j) eqn:Hj;
    try apply bool_decide_eq_true in Hi; try apply bool_decide_eq_true in Hj.
  - case_bool_decide as Hlt; simpl.
    + rewrite list_lookup_insert_ne by lia. reflexivity.
    + destruct (decide (Z.to_nat j < List.length (JS.elems a))%nat) as [Hj'|Hj'].
      * by rewrite lookup_app_l by lia.
      * rewrite (lookup_ge_None_2 (JS.elems a)) by lia.
        rewrite lookup_app_r by lia.
        destruct (decide (Z.to_nat j < Z.to_nat i)%nat) as [Hji|Hji].
        -- rewrite lookup_app_l by (rewrite length_replicate; lia).
           rewrite lookup_replicate_2 by lia. reflexivity.
        -- rewrite lookup_ge_None_2; [reflexivity|].
           rewrite length_app, length_replicate. simpl. lia.
  - case_bool_decide; reflexivity.
  - reflexivity.
  - simpl. by rewrite lookup_insert_ne.
Qed.

(* A write inside the array keeps its length; a write past the end makes
   the written slot the last one. *)
Lemma length_set a i v :
  JS.is_array_index i = true →
  JS.length (JS.set a i v) = Z.max (JS.length a) (i + 1).
Proof.
  intros Hi. unfold JS.set, JS.length. rewrite Hi.
  apply bool_decide_eq_true in Hi. unfold JS.length.
  case_bool_decide as Hlt; simpl.
  - rewrite length_insert. lia.
  - rewrite !length_app, length_replicate. simpl. lia.
Qed.

Lemma get_in_array a i v :
  JS.is_array_index i = true → JS.get a i = v → v ≠ JUndefined →
  i < JS.length a.
Proof.
  unfold JS.get, JS.length. intros Hi Hg Hv. rewrite Hi in Hg.
  apply bool_decide_eq_true in Hi.
  destruct (JS.elems a !! Z.to_nat i) eqn:E; simpl in Hg; [|congruence].
  apply lookup_lt_Some in E. lia.
Qed.

End ArrayFacts.

Section Transitions.

Lemma gameOver_false s :
  gameOver s = false ↔ winner s = None ∧ isDraw s = false.
Proof.
  unfold gameOver. rewrite orb_false_iff, bool_decide_eq_false.
  rewrite <- eq_None_not_Some. tauto.
Qed.

Lemma gameOver_true s :
  gameOver s = true ↔ is_Some (winner s) ∨ isDraw s = true.
Proof. unfold gameOver. by rewrite orb_true_iff, bool_decide_eq_true. Qed.

Lemma handlePress_blocked s i :
  gameOver s = true ∨ JS.truthy (JS.get (board s) i) = true →
  handlePress s i = s.
Proof.
  intros H. unfold handlePress.
  replace (gameOver s || JS.truthy (JS.get (board s) i)) with true; [done|].
  symmetry. apply orb_true_iff. done.
Qed.

Lemma handlePress_placed s i :
  gameOver s = false → JS.truthy (JS.get (board s) i) = false →
  handlePress s i =
    let next := JS.set (JS.spread (board s)) i (JMark (nextPlayer s)) in
    mkState next (negb (isXNext s))
      match calculateWinner next with
      | Some w => line_or_empty (List.find (line_of next w) WINNING_LINES)
      | None => winningCells s
      end.
Proof. intros H1 H2. unfold handlePress. rewrite H1, H2. reflexivity. Qed.

Lemma other_involutive p : other (other p) = p.
Proof. by destruct p. Qed.

Lemma nextPlayer_negb s b' c :
  nextPlayer (mkState b' (negb (isXNext s)) c) = other (nextPlayer s).
Proof. unfold nextPlayer. simpl. by destruct (isXNext s). Qed.

Lemma reachable_play s taps :
  reachable s → Forall in_range taps → reachable (play s taps).
Proof.
  intros Hs Ht. revert s Hs. induction Ht as [|i taps Hi _ IH]; intros s Hs.
  - exact Hs.
  - simpl. apply IH. by constructor.
Qed.

Lemma reachable_reachable_any s : reachable s → reachable_any s.
Proof. induction 1; by constructor. Qed.

End Transitions.

(** C2: for every state and every index in 0..8, when the state is
    terminal (a winner is present or the game is a draw) or the cell at
    the index holds a marker, handlePress returns the state it was given:
    board, isXNext, winningCells and with them winner and isDraw are
    unchanged. *)
Theorem handlePress_noop_when_blocked (s : GameState) (index : Z) :
  in_range index →
  is_Some (winner s) ∨ isDraw s = true
    ∨ (∃ p, JS.get (board s) index = JMark p) →
  handlePress s index = s.
Proof.
  intros _ H. apply handlePress_blocked.
  rewrite gameOver_true, truthy_mark. tauto.
Qed.

Lemma handlePress_noop_when_blocked_witness :
  handlePress (play initialState [4]) 4 = play initialState [4]
  ∧ handlePress (play initialState [0; 3; 1; 4; 2]) 5
    = play initialState [0; 3; 1; 4; 2].
Proof.
  split.
  - apply handlePress_noop_when_blocked; [unfold in_range; lia|].
    right; right. exists X. evaluate.
  - apply handlePress_noop_when_blocked; [unfold in_range; lia|].
    left. exists X. evaluate.
Defined.

(** C3: for every non-terminal state and every index in 0..8 whose cell
    is empty, the board after handlePress holds the marker of the player
    to move at the index and reads as the input board at every other
    cell; the list of cells is the old one updated at the index. *)
Theorem handlePress_sets_only_index (s : GameState) (index : Z) :
  winner s = None → isDraw s = false →
  in_range index → JS.get (board s) index = JNull →
  let s' := handlePress s index in
  JS.get (board s') index = JMark (nextPlayer s)
  ∧ (∀ j, in_range j → j ≠ index →
          JS.get (board s') j = JS.get (board s) j)
  ∧ JS.elems (board s')
    = <[Z.to_nat index := JMark (nextPlayer s)]> (JS.elems (board s)).
Proof.
  intros Hw Hd Hr He s'.
  assert (Hg : gameOver s = false) by (by apply gameOver_false).
  assert (Ht : JS.truthy (JS.get (board s) index) = false) by (by rewrite He).
  subst s'. rewrite (handlePress_placed _ _ Hg Ht). simpl.
  pose proof (in_range_array_index _ Hr) as Hi.
  split_and!.
  - apply get_set_eq.
  - intros j Hj Hne. rewrite get_set_ne by done.
    apply get_spread. by apply in_range_array_index.
  - assert (index < JS.length (board s)) as Hlt
      by (eapply get_in_array; [exact Hi|exact He|done]).
    unfold JS.set. rewrite Hi.
    rewrite bool_decide_eq_true_2; [reflexivity|exact Hlt].
Qed.

Lemma handlePress_sets_only_index_witness :
  let s := play initialState [0; 4] in
  let s' := handlePress s 8 in
  JS.get (board s') 8 = JMark (nextPlayer s)
  ∧ (∀ j, in_range j → j ≠ 8 → JS.get (board s') j = JS.get (board s) j)
  ∧ JS.elems (board s')
    = <[Z.to_nat 8 := JMark (nextPlayer s)]> (JS.elems (board s)).
Proof.
  apply (handlePress_sets_only_index (play initialState [0; 4]) 8);
    [evaluate | evaluate | unfold in_range; lia | evaluate].
Defined.

Section Draw.

Lemma get_EMPTY_BOARD i : in_range i → JS.get EMPTY_BOARD i = JNull.
Proof.
  unfold in_range. intros H.
  assert (i = 0 ∨ i = 1 ∨ i = 2 ∨ i = 3 ∨ i = 4 ∨ i = 5 ∨ i = 6 ∨ i = 7 ∨ i = 8)
    as Hi by lia.
  repeat destruct Hi as [-> | Hi]; try subst i; reflexivity.
Qed.

(* On nine slots, `every(cell => cell !== null)` says that no index of
   0..8 reads null. *)
Lemma isBoardFull_nine b :
  List.length (JS.elems b) = 9%nat →
  isBoardFull b = true ↔ ∀ i, in_range i → JS.get b i ≠ JNull.
Proof.
  destruct b as [el pr]. simpl. intros Hlen.
  do 9 (destruct el as [|? el]; [discriminate|]).
  destruct el; [|discriminate]. clear Hlen.
  unfold isBoardFull, JS.every. simpl.
  rewrite !andb_true_iff, !negb_true_iff, !strict_eq_false. split.
  - intros H i Hi. unfold in_range in Hi.
    assert (i = 0 ∨ i = 1 ∨ i = 2 ∨ i = 3 ∨ i = 4 ∨ i = 5 ∨ i = 6 ∨ i = 7 ∨ i = 8)
      as Hc by lia.
    repeat destruct Hc as [-> | Hc]; try subst i; unfold JS.get; simpl; tauto.
  - intros H.
    pose proof (H 0) as H0. pose proof (H 1) as H1. pose proof (H 2) as H2.
    pose proof (H 3) as H3. pose proof (H 4) as H4. pose proof (H 5) as H5.
    pose proof (H 6) as H6. pose proof (H 7) as H7. pose proof (H 8) as H8.
    unfold JS.get, in_range in *. simpl in *.
    split_and!; try done;
      first [apply H0|apply H1|apply H2|apply H3|apply H4|apply H5
            |apply H6|apply H7|apply H8]; lia.
Qed.

(* In a well-typed board a slot that is not null holds a marker. *)
Lemma well_typed_cell b i :
  well_typed b → in_range i →
  JS.get b i = JNull ∨ ∃ p, JS.get b i = JMark p.
Proof.
  intros (Hlen & Hall & _) Hi. unfold JS.get.
  rewrite (in_range_array_index _ Hi). unfold in_range in Hi.
  destruct (JS.elems b !! Z.to_nat i) as [c|] eqn:E.
  - simpl. rewrite Forall_lookup in Hall. specialize (Hall _ _ E).
    destruct c; eauto. done.
  - apply lookup_ge_None in E. lia.
Qed.

Lemma isDraw_true s :
  isDraw s = true ↔ winner s = None ∧ isBoardFull (board s) = true.
Proof.
  unfold isDraw. rewrite andb_true_iff, negb_true_iff, bool_decide_eq_false.
  by rewrite <- eq_None_not_Some.
Qed.

End Draw.

(** C4: for every board (nine cells, each empty or marked) the state is a
    draw exactly when there is no winner and all nine cells hold a
    marker.  A filled board with no complete canonical line gives
    isDraw = true and winner = none; isDraw is false whenever a winner is
    present or some cell is empty; a winner and a draw exclude each
    other. *)
Theorem isDraw_iff_full_without_winner (s : GameState) :
  well_typed (board s) →
  (isDraw s = true ↔
     winner s = None ∧ ∀ i, in_range i → ∃ p, JS.get (board s) i = JMark p)
  ∧ ((∀ l, l ∈ WINNING_LINES → ¬ complete (board s) l) →
     (∀ i, in_range i → ∃ p, JS.get (board s) i = JMark p) →
     isDraw s = true ∧ winner s = None)
  ∧ (is_Some (winner s) ∨ (∃ i, in_range i ∧ JS.get (board s) i = JNull) →
     isDraw s = false)
  ∧ ¬ (is_Some (winner s) ∧ isDraw s = true).
Proof.
  intros Hwt.
  assert (Hfull : isBoardFull (board s) = true ↔
                  ∀ i, in_range i → ∃ p, JS.get (board s) i = JMark p).
  { rewrite isBoardFull_nine by apply Hwt. split; intros H i Hi.
    - destruct (well_typed_cell _ _ Hwt Hi) as [E|E]; [|done].
      by apply H in E.
    - destruct (H i Hi) as [p ->]. done. }
  assert (Hiff : isDraw s = true ↔
     winner s = None ∧ ∀ i, in_range i → ∃ p, JS.get (board s) i = JMark p).
  { by rewrite isDraw_true, Hfull. }
  split_and!.
  - exact Hiff.
  - intros Hno Hall. assert (winner s = None) as Hw.
    { unfold winner, calculateWinner. rewrite calculateWinner_loop_None.
      by apply Forall_forall. }
    split; [|done]. apply Hiff. done.
  - intros H. apply not_true_is_false. rewrite Hiff. intros [Hw Hall].
    destruct H as [[p Hp]|(i & Hi & Hn)]; [congruence|].
    destruct (Hall i Hi) as [p Hp]. congruence.
  - rewrite Hiff. intros [[p Hp] [Hw _]]. congruence.
Qed.

Lemma isDraw_iff_full_without_winner_witness :
  let s := play initialState [0; 1; 2; 4; 3; 5; 7; 6; 8] in
  (isDraw s = true ↔
     winner s = None ∧ ∀ i, in_range i → ∃ p, JS.get (board s) i = JMark p)
  ∧ ((∀ l, l ∈ WINNING_LINES → ¬ complete (board s) l) →
     (∀ i, in_range i → ∃ p, JS.get (board s) i = JMark p) →
     isDraw s = true ∧ winner s = None)
  ∧ (is_Some (winner s) ∨ (∃ i, in_range i ∧ JS.get (board s) i = JNull) →
     isDraw s = false)
  ∧ ¬ (is_Some (winner s) ∧ isDraw s = true).
Proof.
  apply (isDraw_iff_full_without_winner
           (play initialState [0; 1; 2; 4; 3; 5; 7; 6; 8])).
  split_and!; [evaluate | | evaluate].
  vm_compute. repeat constructor; discriminate.
Defined.

(** C5: whatever the prior state, resetGame gives the initial state: all
    nine cells empty, X to move, no winner, no draw, no winning line. *)
Theorem resetGame_initial (s : GameState) :
  let r := resetGame s in
  r = initialState
  ∧ JS.length (board r) = 9
  ∧ (∀ i, in_range i → JS.get (board r) i = JNull)
  ∧ nextPlayer r = X
  ∧ winner r = None
  ∧ isDraw r = false
  ∧ winningCells r = [].
Proof.
  split_and!; [reflexivity | reflexivity | apply get_EMPTY_BOARD | reflexivity..].
Qed.

(** C7, as the code has it: nextPlayer flips on every move that is
    carried out.  For every non-terminal state and every empty cell in
    0..8, the state after handlePress has the other marker as nextPlayer,
    also when the move wins the game or fills the board. *)
Theorem handlePress_always_flips (s : GameState) (index : Z) :
  winner s = None → isDraw s = false →
  in_range index → JS.get (board s) index = JNull →
  nextPlayer (handlePress s index) = other (nextPlayer s).
Proof.
  intros Hw Hd _ He.
  rewrite handlePress_placed; [apply nextPlayer_negb | by apply gameOver_false
                              | by rewrite He].
Qed.

Lemma handlePress_always_flips_witness :
  nextPlayer (handlePress (play initialState [0; 3; 1; 4]) 2)
  = other (nextPlayer (play initialState [0; 3; 1; 4])).
Proof.
  apply handlePress_always_flips;
    [evaluate | evaluate | unfold in_range; lia | evaluate].
Defined.

(** C7, the claim as written fails: after X at 0, O at 3, X at 1, O at 4
    the state is reachable and not terminal, cell 2 is empty, the move of
    X at 2 wins, and nextPlayer is O afterwards and not X. *)
Lemma nextPlayer_flips_on_winning_move :
  let s := play initialState [0; 3; 1; 4] in
  let s' := handlePress s 2 in
  reachable s
  ∧ winner s = None ∧ isDraw s = false
  ∧ in_range 2 ∧ JS.get (board s) 2 = JNull
  ∧ winner s' = Some X
  ∧ nextPlayer s = X
  ∧ nextPlayer s' = O
  ∧ nextPlayer s' ≠ nextPlayer s.
Proof.
  split_and!.
  - apply reachable_play; [constructor|].
    repeat constructor; unfold in_range; lia.
  - evaluate.
  - evaluate.
  - unfold in_range; lia.
  - evaluate.
  - evaluate.
  - evaluate.
  - evaluate.
  - evaluate.
Qed.

Section WinningCells.

(* When calculateWinner names w, the find of handlePress gets a line, and
   its cells hold w. *)
Lemma find_line_of_winner next w :
  calculateWinner next = Some w →
  ∃ l, List.find (line_of next w) WINNING_LINES = Some l
       ∧ l ∈ WINNING_LINES ∧ holds next l w.
Proof.
  intros (pre & l & post & E & Hl & _)%calculateWinner_loop_Some.
  destruct (List.find (line_of next w) WINNING_LINES) as [l0|] eqn:F.
  - apply find_some in F as [Hin Ht]. exists l0. split_and!; [done| |].
    + by apply list_elem_of_In.
    + by apply line_of_true.
  - exfalso. eapply find_none with (x := l) in F.
    + apply line_of_true in Hl. congruence.
    + rewrite E. apply in_or_app. right. by left.
Qed.

Lemma cells_match_winner_init : cells_match_winner initialState.
Proof. reflexivity. Qed.

Lemma cells_match_winner_press s i :
  cells_match_winner s → cells_match_winner (handlePress s i).
Proof.
  intros Hs.
  destruct (gameOver s) eqn:Hg; [by rewrite handlePress_blocked by auto|].
  destruct (JS.truthy (JS.get (board s) i)) eqn:Ht;
    [by rewrite handlePress_blocked by auto|].
  rewrite handlePress_placed by done. cbv zeta.
  set (next := JS.set _ _ _).
  apply gameOver_false in Hg as [Hw _].
  unfold cells_match_winner in *. rewrite Hw in Hs.
  unfold winner. cbn [board winningCells].
  destruct (calculateWinner next) as [w|] eqn:Hn; [|exact Hs].
  destruct (find_line_of_winner _ _ Hn) as (l & -> & Hin & Hl). eauto.
Qed.

Lemma cells_match_winner_reachable s :
  reachable_any s → cells_match_winner s.
Proof.
  induction 1 as [|s i _ IH|s _ _].
  - apply cells_match_winner_init.
  - by apply cells_match_winner_press.
  - apply cells_match_winner_init.
Qed.

End WinningCells.

(** C6: in every state reachable from the initial state by handlePress
    and resetGame, when a winner is present the winningCells are three
    indices that form one of the eight canonical lines and whose cells all
    hold the winner's marker. *)
Theorem winner_has_winning_line (s : GameState) (p : Player) :
  reachable s → winner s = Some p →
  ∃ a b c, winningCells s = [a; b; c]
           ∧ (a, b, c) ∈ WINNING_LINES
           ∧ JS.get (board s) a = JMark p
           ∧ JS.get (board s) b = JMark p
           ∧ JS.get (board s) c = JMark p.
Proof.
  intros Hr Hw.
  pose proof (cells_match_winner_reachable _ (reachable_reachable_any _ Hr)) as H.
  unfold cells_match_winner in H. rewrite Hw in H.
  destruct H as ([[a b] c] & Hin & Hc & Ha & Hb & Hcc).
  exists a, b, c. done.
Qed.

Lemma winner_has_winning_line_witness :
  let s := play initialState [0; 1; 3; 4; 6] in
  ∃ a b c, winningCells s = [a; b; c]
           ∧ (a, b, c) ∈ WINNING_LINES
           ∧ JS.get (board s) a = JMark X
           ∧ JS.get (board s) b = JMark X
           ∧ JS.get (board s) c = JMark X.
Proof.
  apply (winner_has_winning_line (play initialState [0; 1; 3; 4; 6]) X).
  - apply reachable_play; [constructor|].
    repeat constructor; unfold in_range; lia.
  - evaluate.
Defined.

(** C10: in every state reachable from the initial state by handlePress
    and resetGame, when no winner is present winningCells is the empty
    list. *)
Theorem no_winner_no_winning_line (s : GameState) :
  reachable s → winner s = None → winningCells s = [].
Proof.
  intros Hr Hw.
  pose proof (cells_match_winner_reachable _ (reachable_reachable_any _ Hr)) as H.
  unfold cells_match_winner in H. by rewrite Hw in H.
Qed.

Lemma no_winner_no_winning_line_witness :
  winningCells (play initialState [0; 1; 2; 4; 3; 5; 7; 6; 8]) = [].
Proof.
  apply no_winner_no_winning_line.
  - apply reachable_play; [constructor|].
    repeat constructor; unfold in_range; lia.
  - evaluate.
Defined.

Section OutOfRange.

(* calculateWinner reads the slots 0..8 and nothing else. *)
Lemma calculateWinner_ext b b' :
  (∀ j, in_range j → JS.get b' j = JS.get b j) →
  calculateWinner b' = calculateWinner b.
Proof.
  intros H. unfold calculateWinner, WINNING_LINES.
  cbn [calculateWinner_loop line_test fst].
  rewrite !H by (unfold in_range; lia). reflexivity.
Qed.

Lemma length_spread a : JS.length (JS.spread a) = JS.length a.
Proof. reflexivity. Qed.

Lemma length_set_property a i v :
  JS.is_array_index i = false → JS.length (JS.set a i v) = JS.length a.
Proof. intros Hi. unfold JS.set. rewrite Hi. reflexivity. Qed.

Lemma not_mark_not_truthy v : (∀ p, v ≠ JMark p) → JS.truthy v = false.
Proof. destruct v; [done..|]. intros H. by destruct (H p). Qed.

(* A tap on one of the nine cells never changes the length of a board
   that has nine slots. *)
Lemma handlePress_length_nine s j :
  in_range j → JS.length (board s) = 9 →
  JS.length (board (handlePress s j)) = 9.
Proof.
  intros Hj Hlen. unfold handlePress.
  destruct (gameOver s || JS.truthy (JS.get (board s) j)); [done|].
  cbn [board]. rewrite length_set by (by apply in_range_array_index).
  rewrite length_spread, Hlen. unfold in_range in Hj. lia.
Qed.

End OutOfRange.

(** C9, as the code has it: handlePress has no range check.  For an
    integer index outside 0..8 the state is returned unchanged only when
    the game is over or board[index] already holds a marker.  Otherwise
    the move is carried out: the marker is stored under the index, the
    turn flips, the cells 0..8, the absent winner and winningCells stay as
    they were, and when the index is an array index the array grows to
    reach it.  The length of a nine-cell board is kept by resetGame and by
    handlePress at every index in 0..8. *)
Theorem handlePress_out_of_range (s : GameState) :
  (∀ index, ¬ in_range index →
     (is_Some (winner s) ∨ isDraw s = true
        ∨ (∃ p, JS.get (board s) index = JMark p) →
      handlePress s index = s)
     ∧ (winner s = None → isDraw s = false →
        (∀ p, JS.get (board s) index ≠ JMark p) →
        let s' := handlePress s index in
        nextPlayer s' = other (nextPlayer s)
        ∧ JS.get (board s') index = JMark (nextPlayer s)
        ∧ (∀ j, in_range j → JS.get (board s') j = JS.get (board s) j)
        ∧ winner s' = None
        ∧ winningCells s' = winningCells s
        ∧ (JS.is_array_index index = true →
           JS.length (board s') = Z.max (JS.length (board s)) (index + 1))
        ∧ (JS.is_array_index index = false →
           JS.length (board s') = JS.length (board s))))
  ∧ (∀ j, in_range j → JS.length (board s) = 9 →
          JS.length (board (handlePress s j)) = 9)
  ∧ JS.length (board (resetGame s)) = 9.
Proof.
  split_and!; [|apply handlePress_length_nine|reflexivity].
  intros index Hout. split.
  - intros H. apply handlePress_blocked.
    rewrite gameOver_true, truthy_mark. tauto.
  - intros Hw Hd Hfree s'.
    assert (Hg : gameOver s = false) by (by apply gameOver_false).
    pose proof (not_mark_not_truthy _ Hfree) as Ht.
    assert (Hcells : ∀ j, in_range j →
              JS.get (JS.set (JS.spread (board s)) index (JMark (nextPlayer s))) j
              = JS.get (board s) j).
    { intros j Hj. rewrite get_set_ne by (intros ->; done).
      apply get_spread. by apply in_range_array_index. }
    assert (Hnew : calculateWinner
                     (JS.set (JS.spread (board s)) index (JMark (nextPlayer s)))
                   = None).
    { rewrite (calculateWinner_ext (board s)) by exact Hcells. exact Hw. }
    subst s'. rewrite (handlePress_placed _ _ Hg Ht). cbv zeta.
    unfold winner. cbn [board winningCells]. rewrite Hnew.
    split_and!.
    + apply nextPlayer_negb.
    + apply get_set_eq.
    + exact Hcells.
    + reflexivity.
    + reflexivity.
    + intros Hi. by rewrite length_set, length_spread.
    + intros Hi. by rewrite length_set_property, length_spread.
Qed.

Lemma handlePress_out_of_range_witness :
  let s := play initialState [4] in
  let s' := handlePress s 9 in
  nextPlayer s' = other (nextPlayer s)
  ∧ JS.get (board s') 9 = JMark (nextPlayer s)
  ∧ (∀ j, in_range j → JS.get (board s') j = JS.get (board s) j)
  ∧ winner s' = None
  ∧ winningCells s' = winningCells s
  ∧ (JS.is_array_index 9 = true →
     JS.length (board s') = Z.max (JS.length (board s)) (9 + 1))
  ∧ (JS.is_array_index 9 = false →
     JS.length (board s') = JS.length (board s)).
Proof.
  refine (proj2 (proj1 (handlePress_out_of_range (play initialState [4]))
                   9 _) _ _ _).
  - unfold in_range; lia.
  - evaluate.
  - evaluate.
  - intros p. evaluate.
Defined.

(** C9, the claim as written fails: 9 is outside 0..8, and handlePress at
    9 on the initial state stores X in a tenth slot and hands the turn to
    O; at -1 the turn is handed over as well. *)
Lemma handlePress_at_nine_is_not_a_noop :
  let s' := handlePress initialState 9 in
  ¬ in_range 9
  ∧ s' ≠ initialState
  ∧ JS.length (board initialState) = 9
  ∧ JS.length (board s') = 10
  ∧ JS.get (board s') 9 = JMark X
  ∧ nextPlayer initialState = X
  ∧ nextPlayer s' = O
  ∧ handlePress initialState (-1) ≠ initialState.
Proof.
  split_and!.
  - unfold in_range; lia.
  - intros H. apply (f_equal isXNext) in H. vm_compute in H. discriminate.
  - evaluate.
  - evaluate.
  - evaluate.
  - evaluate.
  - evaluate.
  - intros H. apply (f_equal isXNext) in H. vm_compute in H. discriminate.
Qed.

Section Counting.

Lemma count_occ_two_le (l : list JSValue) x y :
  x ≠ y →
  (count_occ JSValue_eq_dec l x + count_occ JSValue_eq_dec l y
   ≤ List.length l)%nat.
Proof.
  intros Hne. induction l as [|c l IH]; simpl; [lia|].
  destruct (JSValue_eq_dec c x), (JSValue_eq_dec c y); try lia. congruence.
Qed.

(* Writing a marker over an empty slot adds one to the count of that
   marker and leaves the count of the other one alone. *)
Lemma count_occ_insert_mark (l : list JSValue) n p q :
  l !! n = Some JNull →
  count_occ JSValue_eq_dec (<[n := JMark p]> l) (JMark q)
  = (count_occ JSValue_eq_dec l (JMark q) + (if decide (p = q) then 1 else 0))%nat.
Proof.
  revert n. induction l as [|c l IH]; intros [|n] H; simpl in *; try done.
  - injection H as ->.
    destruct (JSValue_eq_dec (JMark p) (JMark q)) as [E|E];
      destruct (JSValue_eq_dec JNull (JMark q)); try done;
      case_decide; try lia; try congruence.

  - rewrite (IH _ H). destruct (JSValue_eq_dec c (JMark q)); lia.
Qed.

Lemma get_lookup b i :
  JS.is_array_index i = true → i < JS.length b →
  JS.elems b !! Z.to_nat i = Some (JS.get b i).
Proof.
  intros Hi Hlt. unfold JS.get. rewrite Hi. unfold JS.length in Hlt.
  apply bool_decide_eq_true in Hi.
  destruct (JS.elems b !! Z.to_nat i) eqn:E; [done|].
  apply lookup_ge_None in E. lia.
Qed.

Lemma turns_alternate_init : turns_alternate initialState.
Proof.
  split; [|reflexivity]. split_and!; [reflexivity| |reflexivity].
  simpl. repeat constructor; discriminate.
Qed.

Lemma turns_alternate_press s i :
  in_range i → turns_alternate s → turns_alternate (handlePress s i).
Proof.
  intros Hi [Hwt Hcount].
  destruct (gameOver s) eqn:Hg; [by rewrite handlePress_blocked by auto|].
  destruct (JS.truthy (JS.get (board s) i)) eqn:Ht;
    [by rewrite handlePress_blocked by auto|].
  rewrite handlePress_placed by done. cbv zeta.
  pose proof (in_range_array_index _ Hi) as Hidx.
  destruct Hwt as (Hlen & Hall & Hprops).
  assert (i < JS.length (board s)) as Hlt
    by (unfold JS.length; rewrite Hlen; unfold in_range in Hi; lia).
  assert (JS.get (board s) i = JNull) as Hnull.
  { destruct (well_typed_cell (board s) i) as [E|[p E]]; [done..| |]; [done|].
    rewrite E in Ht. discriminate. }
  pose proof (get_lookup _ _ Hidx Hlt) as Hlook. rewrite Hnull in Hlook.
  unfold turns_alternate, well_typed, marks. cbn [board isXNext].
  unfold JS.set. rewrite Hidx.
  rewrite bool_decide_eq_true_2 by (by rewrite length_spread).
  cbn [JS.elems JS.props JS.spread].
  rewrite length_insert, !(count_occ_insert_mark _ _ _ _ Hlook).
  split_and!; [done| |done|].
  - apply Forall_insert; done.
  - unfold marks in Hcount. rewrite Hcount. unfold nextPlayer.
    destruct (isXNext s); simpl; repeat case_decide; try congruence; lia.
Qed.

Lemma turns_alternate_reachable s : reachable s → turns_alternate s.
Proof.
  induction 1 as [|s i _ IH Hi|s _ _].
  - apply turns_alternate_init.
  - by apply turns_alternate_press.
  - apply turns_alternate_init.
Qed.

(* The player who has just moved has five marks at most. *)
Lemma mover_has_at_most_five s :
  turns_alternate s →
  (marks (other (nextPlayer s)) (board s) ≤ 5)%nat.
Proof.
  intros [(Hlen & _ & _) Hcount].
  assert (JMark X ≠ JMark O) as Hne by discriminate.
  pose proof (count_occ_two_le (JS.elems (board s)) _ _ Hne) as H.
  rewrite Hlen in H. unfold marks in *. unfold nextPlayer.
  destruct (isXNext s); simpl; lia.
Qed.

End Counting.

Section Masks.

Lemma masks_complete (m : list bool) : m ∈ masks (List.length m).
Proof.
  induction m as [|[] m IH]; simpl.
  - by apply list_elem_of_singleton.
  - apply elem_of_app. left. by apply list_elem_of_fmap_2.
  - apply elem_of_app. right. by apply list_elem_of_fmap_2.
Qed.

Lemma masks_nine_checked : forallb few_cells_few_lines (masks 9) = true.
Proof. vm_compute. reflexivity. Qed.

Lemma count_occ_mask p (cells : list JSValue) :
  count_occ bool_dec (mask p cells) true
  = count_occ JSValue_eq_dec cells (JMark p).
Proof.
  induction cells as [|c cells IH]; [done|].
  change (mask p (c :: cells)) with (JS.strict_eq c (JMark p) :: mask p cells).
  destruct (JSValue_eq_dec c (JMark p)) as [E|E].
  - rewrite (proj2 (strict_eq_true _ _) E).
    rewrite !count_occ_cons_eq by done. by rewrite IH.
  - rewrite (proj2 (strict_eq_false _ _) E).
    rewrite !count_occ_cons_neq by done. exact IH.
Qed.

Lemma nth_mask p b i :
  JS.is_array_index i = true →
  nth (Z.to_nat i) (mask p (JS.elems b)) false
  = JS.strict_eq (JS.get b i) (JMark p).
Proof.
  intros Hi. unfold JS.get. rewrite Hi. unfold mask.
  generalize (Z.to_nat i) as n. intros n.
  revert n. induction (JS.elems b) as [|c l IH]; intros [|n]; simpl; done.
Qed.

Lemma WINNING_LINES_in_range a b c :
  (a, b, c) ∈ WINNING_LINES → in_range a ∧ in_range b ∧ in_range c.
Proof.
  assert (Forall (λ l : Z * Z * Z,
            in_range (fst (fst l)) ∧ in_range (snd (fst l)) ∧ in_range (snd l))
            WINNING_LINES) as H
    by (repeat constructor; unfold in_range; simpl; lia).
  rewrite Forall_forall in H. intros Hin. exact (H _ Hin).
Qed.

Lemma mask_line_line_of p b l :
  l ∈ WINNING_LINES →
  mask_line (mask p (JS.elems b)) l = line_of b p l.
Proof.
  destruct l as [[i j] k]. intros (Hi & Hj & Hk)%WINNING_LINES_in_range.
  unfold mask_line, line_of.
  by rewrite !nth_mask by (by apply in_range_array_index).
Qed.

(* On nine cells, a marker that occurs five times or fewer completes two
   lines at most. *)
Lemma five_marks_two_lines p b :
  List.length (JS.elems b) = 9%nat → (marks p b ≤ 5)%nat →
  (List.length (List.filter (line_of b p) WINNING_LINES) ≤ 2)%nat.
Proof.
  intros Hlen Hmarks.
  pose proof (masks_complete (mask p (JS.elems b))) as Hin.
  unfold mask in Hin at 2. rewrite length_map, Hlen in Hin.
  pose proof masks_nine_checked as Hall.
  rewrite forallb_forall in Hall.
  apply list_elem_of_In, Hall in Hin. unfold few_cells_few_lines in Hin.
  rewrite count_occ_mask in Hin. unfold marks in Hmarks.
  apply orb_true_iff in Hin as [Hin|Hin].
  - apply Nat.ltb_lt in Hin. lia.
  - apply Nat.leb_le in Hin.
    erewrite filter_ext_in; [exact Hin|].
    intros l Hl. symmetry. by apply mask_line_line_of, list_elem_of_In.
Qed.

End Masks.

Section Scan.

Lemma find_head_filter {A} (f : A → bool) (l : list A) :
  List.find f l = head (List.filter f l).
Proof. induction l as [|x l IH]; simpl; [done|]. by destruct (f x). Qed.

(* calculateWinner answers with the first cell of the first completed
   line. *)
Lemma calculateWinner_head_completed b :
  calculateWinner b
  = match head (completed b) with
    | Some l => as_player (JS.get b (fst (fst l)))
    | None => None
    end.
Proof.
  unfold calculateWinner, completed. rewrite <- find_head_filter.
  induction WINNING_LINES as [|l rest IH]; simpl; [done|].
  by destruct (line_test b l).
Qed.

Lemma elem_of_completed b l :
  l ∈ completed b ↔ l ∈ WINNING_LINES ∧ complete b l.
Proof.
  unfold completed. rewrite !list_elem_of_In, filter_In.
  by rewrite line_test_true.
Qed.

End Scan.

Section LegalMove.

Variables (s : GameState) (index : Z).
Hypothesis Hreach : reachable s.
Hypothesis Hwinner : winner s = None.
Hypothesis Hdraw : isDraw s = false.
Hypothesis Hrange : in_range index.
Hypothesis Hempty : JS.get (board s) index = JNull.

Local Abbreviation mover := (nextPlayer s).
Local Abbreviation next := (JS.set (JS.spread (board s)) index (JMark mover)).

Lemma legal_move_state :
  handlePress s index =
    mkState next (negb (isXNext s))
      match calculateWinner next with
      | Some w => line_or_empty (List.find (line_of next w) WINNING_LINES)
      | None => winningCells s
      end.
Proof.
  apply handlePress_placed; [by apply gameOver_false | by rewrite Hempty].
Qed.

Lemma legal_move_board : board (handlePress s index) = next.
Proof. by rewrite legal_move_state. Qed.

Lemma next_at_index : JS.get next index = JMark mover.
Proof. apply get_set_eq. Qed.

Lemma next_elsewhere j :
  in_range j → j ≠ index → JS.get next j = JS.get (board s) j.
Proof.
  intros Hj Hne. rewrite get_set_ne by done.
  apply get_spread. by apply in_range_array_index.
Qed.

Lemma none_complete_before l : l ∈ WINNING_LINES → ¬ complete (board s) l.
Proof.
  intros Hl. unfold winner, calculateWinner in Hwinner.
  rewrite calculateWinner_loop_None, Forall_forall in Hwinner. auto.
Qed.

(* A line that is complete after the move runs through the cell just
   played and carries the mover's marker. *)
Lemma complete_after_through_index l q :
  l ∈ WINNING_LINES → holds next l q → on_line index l ∧ q = mover.
Proof.
  intros Hl Hq. destruct l as [[a b] c].
  destruct (WINNING_LINES_in_range _ _ _ Hl) as (Ha & Hb & Hc).
  pose proof next_at_index as Hat.
  destruct Hq as (Hqa & Hqb & Hqc). unfold on_line.
  destruct (decide (index = a)) as [->|Na]; [split; [auto|congruence]|].
  destruct (decide (index = b)) as [->|Nb]; [split; [auto|congruence]|].
  destruct (decide (index = c)) as [->|Nc]; [split; [auto|congruence]|].
  exfalso. apply (none_complete_before _ Hl). exists q.
  rewrite next_elsewhere in Hqa, Hqb, Hqc by done. done.
Qed.

Lemma line_test_next l :
  l ∈ WINNING_LINES → line_test next l = line_of next mover l.
Proof.
  intros Hl. apply eq_true_iff_eq.
  rewrite line_test_true, line_of_true. split.
  - intros [q Hq].
    by destruct (complete_after_through_index _ _ Hl Hq) as [_ ->].
  - intros H. by exists mover.
Qed.

Lemma completed_next :
  completed next = List.filter (line_of next mover) WINNING_LINES.
Proof.
  apply filter_ext_in. intros l Hl. by apply line_test_next, list_elem_of_In.
Qed.

Lemma completed_next_at_most_two : (List.length (completed next) ≤ 2)%nat.
Proof.
  rewrite completed_next.
  assert (reachable (handlePress s index)) as Hr' by (by constructor).
  apply turns_alternate_reachable in Hr' as Hturns.
  pose proof (mover_has_at_most_five _ Hturns) as Hfive.
  destruct Hturns as [(Hlen & _) _].
  rewrite legal_move_board in Hlen.
  rewrite legal_move_state in Hfive. rewrite nextPlayer_negb in Hfive.
  cbn [board] in Hfive.
  rewrite other_involutive in Hfive.
  by apply five_marks_two_lines.
Qed.

Lemma winner_next :
  calculateWinner next
  = match completed next with [] => None | _ :: _ => Some mover end.
Proof.
  rewrite calculateWinner_head_completed.
  destruct (completed next) as [|l rest] eqn:E; [done|]. simpl.
  assert (l ∈ completed next) as Hl by (rewrite E; by left).
  apply elem_of_completed in Hl as [Hl [q Hq]].
  destruct (complete_after_through_index _ _ Hl Hq) as [_ ->].
  apply line_test_marker; [|done]. apply line_test_true. by exists mover.
Qed.

Lemma winningCells_next :
  winningCells (handlePress s index) = line_or_empty (head (completed next)).
Proof.
  rewrite legal_move_state. cbn [winningCells]. rewrite winner_next.
  destruct (completed next) as [|l rest] eqn:E.
  - pose proof (cells_match_winner_reachable _
                  (reachable_reachable_any _ Hreach)) as H.
    unfold cells_match_winner in H. by rewrite Hwinner in H.
  - by rewrite find_head_filter, <- completed_next, E.
Qed.

End LegalMove.

(** C8, as the code and the game have it: for every reachable
    non-terminal state and every legal move, no canonical line is
    complete before the move; every canonical line complete after it runs
    through the cell just played and holds the mover's marker; at most two
    lines become complete by the move; winningCells is the first of them
    in scan order, and the winner is the mover as soon as there is one. *)
Theorem move_completes_at_most_two_lines (s : GameState) (index : Z) :
  reachable s → winner s = None → isDraw s = false →
  in_range index → JS.get (board s) index = JNull →
  let s' := handlePress s index in
  (∀ l, l ∈ WINNING_LINES → ¬ complete (board s) l)
  ∧ (∀ l, l ∈ WINNING_LINES → complete (board s') l →
          on_line index l ∧ holds (board s') l (nextPlayer s))
  ∧ (List.length (completed (board s')) ≤ 2)%nat
  ∧ winningCells s' = line_or_empty (head (completed (board s')))
  ∧ winner s' = match completed (board s') with
                | [] => None
                | _ :: _ => Some (nextPlayer s)
                end.
Proof.
  intros Hr Hw Hd Hi He s'. subst s'. unfold winner.
  rewrite (legal_move_board s index Hw Hd He).
  split_and!.
  - intros l. by apply none_complete_before.
  - intros l Hl [q Hq].
    assert (on_line index l ∧ q = nextPlayer s) as [Hon ->]
      by (eapply complete_after_through_index; eassumption).
    done.
  - by apply completed_next_at_most_two.
  - by apply winningCells_next.
  - by apply winner_next.
Qed.

Lemma move_completes_at_most_two_lines_witness :
  let s := play initialState [0; 3; 1; 4; 5; 6; 8; 7] in
  let s' := handlePress s 2 in
  (∀ l, l ∈ WINNING_LINES → ¬ complete (board s) l)
  ∧ (∀ l, l ∈ WINNING_LINES → complete (board s') l →
          on_line 2 l ∧ holds (board s') l (nextPlayer s))
  ∧ (List.length (completed (board s')) ≤ 2)%nat
  ∧ winningCells s' = line_or_empty (head (completed (board s')))
  ∧ winner s' = match completed (board s') with
                | [] => None
                | _ :: _ => Some (nextPlayer s)
                end.
Proof.
  apply (move_completes_at_most_two_lines
           (play initialState [0; 3; 1; 4; 5; 6; 8; 7]) 2).
  - apply reachable_play; [constructor|].
    repeat constructor; unfold in_range; lia.
  - evaluate.
  - evaluate.
  - unfold in_range; lia.
  - evaluate.
Defined.

(** C8, the claim as written fails: after X 0, O 3, X 1, O 4, X 5, O 6,
    X 8, O 7 the state is reachable and not terminal and cell 2 is empty;
    the move of X at 2 completes the row 0-1-2 and the column 2-5-8 at
    once.  winningCells is the row, first in scan order; scanning the
    same lines in the reverse order would give the column. *)
Lemma corner_move_completes_two_lines :
  let s := play initialState [0; 3; 1; 4; 5; 6; 8; 7] in
  let s' := handlePress s 2 in
  reachable s
  ∧ winner s = None ∧ isDraw s = false
  ∧ in_range 2 ∧ JS.get (board s) 2 = JNull
  ∧ (0, 1, 2) ∈ WINNING_LINES ∧ (2, 5, 8) ∈ WINNING_LINES
  ∧ (0, 1, 2) ≠ (2, 5, 8)
  ∧ ¬ complete (board s) (0, 1, 2) ∧ ¬ complete (board s) (2, 5, 8)
  ∧ complete (board s') (0, 1, 2) ∧ complete (board s') (2, 5, 8)
  ∧ completed (board s') = [(0, 1, 2); (2, 5, 8)]
  ∧ winningCells s' = [0; 1; 2]
  ∧ line_or_empty (List.find (line_of (board s') X) (rev WINNING_LINES))
    = [2; 5; 8].
Proof.
  split_and!.
  - apply reachable_play; [constructor|].
    repeat constructor; unfold in_range; lia.
  - evaluate.
  - evaluate.
  - unfold in_range; lia.
  - evaluate.
  - set_solver.
  - set_solver.
  - discriminate.
  - rewrite <- line_test_true. evaluate.
  - rewrite <- line_test_true. evaluate.
  - apply line_test_true. evaluate.
  - apply line_test_true. evaluate.
  - evaluate.
  - evaluate.
  - evaluate.
Qed.

(* ===================================================================== *)
(* Further properties of the game logic                                   *)
(* ===================================================================== *)

Section Taps.

(* One tap on a marked slot of the array leaves that slot alone, and so
   does a tap anywhere else. *)
Lemma handlePress_keeps_mark s i j p :
  JS.is_array_index j = true →
  JS.get (board s) j = JMark p →
  JS.get (board (handlePress s i)) j = JMark p.
Proof.
  intros Hj Hp.
  destruct (gameOver s) eqn:Hg; [by rewrite handlePress_blocked by auto|].
  destruct (JS.truthy (JS.get (board s) i)) eqn:Ht;
    [by rewrite handlePress_blocked by auto|].
  rewrite handlePress_placed by done. cbn [board].
  assert (i ≠ j) as Hne by (intros ->; rewrite Hp in Ht; discriminate).
  by rewrite get_set_ne, get_spread.
Qed.

Lemma play_cons s i taps : play s (i :: taps) = play (handlePress s i) taps.
Proof. reflexivity. Qed.

End Taps.

(** X1: tapping the same cell twice is the same as tapping it once, for
    every state and every integer index: after a tap that placed a marker
    the slot is occupied, and a tap that was ignored is ignored again. *)
Theorem handlePress_idempotent (s : GameState) (index : Z) :
  handlePress (handlePress s index) index = handlePress s index.
Proof.
  destruct (gameOver s) eqn:Hg;
    [by rewrite !(handlePress_blocked s index) by auto|].
  destruct (JS.truthy (JS.get (board s) index)) eqn:Ht;
    [by rewrite !(handlePress_blocked s index) by auto|].
  apply handlePress_blocked. right.
  rewrite handlePress_placed by done. cbn [board].
  by rewrite get_set_eq.
Qed.

(** X2: a finished game absorbs every tap.  When a winner is present or
    the game is a draw, no sequence of taps, on whatever integers, changes
    the state; only resetGame leaves it. *)
Theorem play_after_game_over (s : GameState) (taps : list Z) :
  is_Some (winner s) ∨ isDraw s = true →
  play s taps = s.
Proof.
  intros H. induction taps as [|i taps IH]; [done|].
  rewrite play_cons, handlePress_blocked; [exact IH|].
  left. by apply gameOver_true.
Qed.

Lemma play_after_game_over_witness :
  play (play initialState [0; 3; 1; 4; 2]) [5; 6; 9; -1; 5]
  = play initialState [0; 3; 1; 4; 2].
Proof.
  apply play_after_game_over. left. exists X. evaluate.
Defined.

(** X3: a placed marker is never erased or overwritten by taps.  When a
    slot of the array holds a marker, it holds the same marker after any
    sequence of taps on any integers. *)
Theorem play_keeps_marks (s : GameState) (taps : list Z) (j : Z) (p : Player) :
  JS.is_array_index j = true →
  JS.get (board s) j = JMark p →
  JS.get (board (play s taps)) j = JMark p.
Proof.
  intros Hj. revert s. induction taps as [|i taps IH]; intros s Hp; [done|].
  rewrite play_cons. apply IH. by apply handlePress_keeps_mark.
Qed.

Lemma play_keeps_marks_witness :
  JS.get (board (play (play initialState [4]) [4; 0; 4; 8; 12; 4])) 4 = JMark X.
Proof.
  apply play_keeps_marks; evaluate.
Defined.

(** X4: every state reached by taps on the nine cells and by resets has a
    board of the declared type: exactly nine slots, each null or a marker,
    and no property besides them. *)
Theorem reachable_board_well_typed (s : GameState) :
  reachable s →
  JS.length (board s) = 9
  ∧ (∀ i, in_range i →
          JS.get (board s) i = JNull ∨ ∃ p, JS.get (board s) i = JMark p)
  ∧ JS.props (board s) = ∅.
Proof.
  intros [Hwt _]%turns_alternate_reachable. split_and!.
  - unfold JS.length. destruct Hwt as [-> _]. done.
  - intros i Hi. by apply well_typed_cell.
  - apply Hwt.
Qed.

Lemma reachable_board_well_typed_witness :
  let s := play initialState [4; 0; 8] in
  JS.length (board s) = 9
  ∧ (∀ i, in_range i →
          JS.get (board s) i = JNull ∨ ∃ p, JS.get (board s) i = JMark p)
  ∧ JS.props (board s) = ∅.
Proof.
  apply (reachable_board_well_typed (play initialState [4; 0; 8])).
  apply reachable_play; [constructor|].
  repeat constructor; unfold in_range; lia.
Defined.

(** X5: the players take turns, X first.  In every reachable state X has
    as many marks as O when X is to move and one more when O is; so X
    never has more than five marks and O never more than four. *)
Theorem reachable_marks_alternate (s : GameState) :
  reachable s →
  marks X (board s)
  = (marks O (board s) + (if isXNext s then 0 else 1))%nat
  ∧ (marks X (board s) ≤ 5)%nat
  ∧ (marks O (board s) ≤ 4)%nat.
Proof.
  intros [(Hlen & _ & _) Hcount]%turns_alternate_reachable.
  assert (JMark X ≠ JMark O) as Hne by discriminate.
  pose proof (count_occ_two_le (JS.elems (board s)) _ _ Hne) as H.
  rewrite Hlen in H. unfold marks in *.
  destruct (isXNext s); lia.
Qed.

Lemma reachable_marks_alternate_witness :
  let s := play initialState [4; 0; 8] in
  marks X (board s)
  = (marks O (board s) + (if isXNext s then 0 else 1))%nat
  ∧ (marks X (board s) ≤ 5)%nat
  ∧ (marks O (board s) ≤ 4)%nat.
Proof.
  apply (reachable_marks_alternate (play initialState [4; 0; 8])).
  apply reachable_play; [constructor|].
  repeat constructor; unfold in_range; lia.
Defined.

(** X6: the link between winner and winningCells survives taps on any
    integer, in or out of 0..8.  In every state reached by handlePress on
    arbitrary integers and by resetGame, a winner comes with winningCells
    naming a canonical line whose cells hold the winner's marker, and no
    winner comes with empty winningCells. *)
Theorem winningCells_follow_winner_for_any_taps (s : GameState) :
  reachable_any s →
  (∀ p, winner s = Some p →
        ∃ a b c, winningCells s = [a; b; c]
                 ∧ (a, b, c) ∈ WINNING_LINES
                 ∧ JS.get (board s) a = JMark p
                 ∧ JS.get (board s) b = JMark p
                 ∧ JS.get (board s) c = JMark p)
  ∧ (winner s = None → winningCells s = []).
Proof.
  intros H%cells_match_winner_reachable. unfold cells_match_winner in H.
  split.
  - intros p Hp. rewrite Hp in H.
    destruct H as ([[a b] c] & Hin & Hc & Ha & Hb & Hcc). by exists a, b, c.
  - intros Hn. by rewrite Hn in H.
Qed.

Lemma winningCells_follow_winner_for_any_taps_witness :
  let s := play initialState [0; 9; 1; -1; 2] in
  (∀ p, winner s = Some p →
        ∃ a b c, winningCells s = [a; b; c]
                 ∧ (a, b, c) ∈ WINNING_LINES
                 ∧ JS.get (board s) a = JMark p
                 ∧ JS.get (board s) b = JMark p
                 ∧ JS.get (board s) c = JMark p)
  ∧ (winner s = None → winningCells s = []).
Proof.
  apply (winningCells_follow_winner_for_any_taps
           (play initialState [0; 9; 1; -1; 2])).
  unfold play. simpl fold_left. repeat constructor.
Defined.

Section WinnerFacts.

Lemma no_line_on_EMPTY_BOARD l q :
  l ∈ WINNING_LINES → ¬ holds EMPTY_BOARD l q.
Proof.
  destruct l as [[a b] c]. intros (Ha & _)%WINNING_LINES_in_range (Hq & _).
  rewrite get_EMPTY_BOARD in Hq by done. discriminate.
Qed.

(* Whoever owns a complete line of a reachable board is the winner and
   has moved last. *)
Lemma complete_line_is_winners s l q :
  reachable s → l ∈ WINNING_LINES → holds (board s) l q →
  winner s = Some q ∧ nextPlayer s = other q.
Proof.
  intros Hr. revert l q.
  induction Hr as [|s i Hr IH Hi|s _ _]; intros l q Hl Hq.
  - by destruct (no_line_on_EMPTY_BOARD _ _ Hl Hq).
  - destruct (gameOver s) eqn:Hg;
      [rewrite handlePress_blocked in * by auto; by apply (IH l)|].
    destruct (JS.truthy (JS.get (board s) i)) eqn:Ht;
      [rewrite handlePress_blocked in * by auto; by apply (IH l)|].
    apply gameOver_false in Hg as [Hw Hd].
    pose proof (turns_alternate_reachable _ Hr) as [Hwt _].
    assert (JS.get (board s) i = JNull) as He.
    { destruct (well_typed_cell _ _ Hwt Hi) as [E|[p E]]; [done|].
      rewrite E in Ht. discriminate. }
    rewrite (legal_move_board s i Hw Hd He) in Hq.
    assert (q = nextPlayer s) as ->
      by (eapply complete_after_through_index; eassumption).
    split.
    + unfold winner. rewrite (legal_move_board s i Hw Hd He).
      rewrite (winner_next s i Hw Hi He).
      destruct (completed _) as [|l0 rest] eqn:E; [|done].
      assert (l ∈ completed
                (JS.set (JS.spread (board s)) i (JMark (nextPlayer s)))) as Hin
        by (apply elem_of_completed; split; [done|by eexists]).
      rewrite E in Hin. by apply elem_of_nil in Hin.
    + rewrite (legal_move_state s i Hw Hd He). apply nextPlayer_negb.
  - by destruct (no_line_on_EMPTY_BOARD _ _ Hl Hq).
Qed.

(* On a list without undefined, the cells that pass the test of
   isBoardFull are the marked ones. *)
Lemma count_marks_full (cells : list JSValue) :
  Forall (λ c, c ≠ JUndefined) cells →
  forallb (λ cell, negb (JS.strict_eq cell JNull)) cells = true →
  (count_occ JSValue_eq_dec cells (JMark X)
   + count_occ JSValue_eq_dec cells (JMark O))%nat = List.length cells.
Proof.
  induction 1 as [|c cells Hc _ IH]; [done|].
  cbn [forallb]. rewrite andb_true_iff, negb_true_iff, strict_eq_false.
  intros [Hn Hfull]. specialize (IH Hfull). cbn [List.length].
  destruct c as [| |[]]; try done.
  - rewrite count_occ_cons_eq, count_occ_cons_neq by done. lia.
  - rewrite count_occ_cons_neq, count_occ_cons_eq by done. lia.
Qed.

End WinnerFacts.

(** X7: the winner is always the player who moved last.  In every
    reachable state with a winner, the turn flag points at the other
    player. *)
Theorem winner_moved_last (s : GameState) (p : Player) :
  reachable s → winner s = Some p → nextPlayer s = other p.
Proof.
  intros Hr Hw. unfold winner, calculateWinner in Hw.
  apply calculateWinner_loop_Some in Hw as (pre & l & post & E & Hl & _).
  eapply complete_line_is_winners; [done| |exact Hl].
  rewrite E. apply elem_of_app. right. by left.
Qed.

Lemma winner_moved_last_witness :
  nextPlayer (play initialState [0; 3; 1; 4; 8; 5]) = other O.
Proof.
  apply winner_moved_last.
  - apply reachable_play; [constructor|].
    repeat constructor; unfold in_range; lia.
  - evaluate.
Defined.

(** X8: on a reachable board the two players never both own a complete
    line, so the winner does not depend on the order in which
    calculateWinner scans the lines: the loop run over any rearrangement
    of WINNING_LINES returns the same winner. *)
Theorem winner_independent_of_scan_order (s : GameState)
    (lines : list (Z * Z * Z)) :
  reachable s → lines ≡ₚ WINNING_LINES →
  calculateWinner_loop lines (board s) = winner s.
Proof.
  intros Hr Hperm.
  destruct (calculateWinner_loop lines (board s)) as [q|] eqn:E.
  - apply calculateWinner_loop_Some in E as (pre & l & post & -> & Hl & _).
    symmetry. eapply complete_line_is_winners; [done| |exact Hl].
    rewrite <- Hperm. apply elem_of_app. right. by left.
  - symmetry. unfold winner, calculateWinner.
    rewrite calculateWinner_loop_None in *. by rewrite <- Hperm.
Qed.

Lemma winner_independent_of_scan_order_witness :
  calculateWinner_loop (rev WINNING_LINES)
    (board (play initialState [0; 3; 1; 4; 5; 6; 8; 7; 2]))
  = winner (play initialState [0; 3; 1; 4; 5; 6; 8; 7; 2]).
Proof.
  apply winner_independent_of_scan_order.
  - apply reachable_play; [constructor|].
    repeat constructor; unfold in_range; lia.
  - symmetry. apply Permutation_rev.
Defined.

(** X9: a draw is reached only by X's fifth mark.  In every reachable
    state that is a draw the board holds five X and four O, and the turn
    flag points at O. *)
Theorem draw_has_five_X_four_O (s : GameState) :
  reachable s → isDraw s = true →
  marks X (board s) = 5%nat ∧ marks O (board s) = 4%nat ∧ nextPlayer s = O.
Proof.
  intros [(Hlen & Hall & _) Hcount]%turns_alternate_reachable
         [_ Hfull]%isDraw_true.
  pose proof (count_marks_full _ Hall Hfull) as Hsum.
  rewrite Hlen in Hsum. unfold marks, nextPlayer in *.
  destruct (isXNext s); split_and!; try done; lia.
Qed.

Lemma draw_has_five_X_four_O_witness :
  let s := play initialState [0; 1; 2; 4; 3; 5; 7; 6; 8] in
  marks X (board s) = 5%nat ∧ marks O (board s) = 4%nat ∧ nextPlayer s = O.
Proof.
  apply (draw_has_five_X_four_O (play initialState [0; 1; 2; 4; 3; 5; 7; 6; 8])).
  - apply reachable_play; [constructor|].
    repeat constructor; unfold in_range; lia.
  - evaluate.
Defined.

Section Symmetry.

Lemma swap_value_involutive v : swap_value (swap_value v) = v.
Proof. by destruct v as [| |[]]. Qed.

Lemma swap_value_inj v w : swap_value v = swap_value w ↔ v = w.
Proof.
  split; [|by intros ->]. intros H.
  by rewrite <- (swap_value_involutive v), H, swap_value_involutive.
Qed.

Lemma get_swap_board b i :
  JS.get (swap_board b) i = swap_value (JS.get b i).
Proof.
  unfold JS.get, swap_board. cbn [JS.elems JS.props].
  destruct (JS.is_array_index i).
  - rewrite list_lookup_fmap. by destruct (JS.elems b !! Z.to_nat i).
  - rewrite lookup_fmap. by destruct (JS.props b !! i).
Qed.

Lemma truthy_swap v : JS.truthy (swap_value v) = JS.truthy v.
Proof. by destruct v. Qed.

Lemma strict_eq_swap v w :
  JS.strict_eq (swap_value v) (swap_value w) = JS.strict_eq v w.
Proof.
  apply eq_true_iff_eq. rewrite !strict_eq_true. apply swap_value_inj.
Qed.

Lemma as_player_swap v : as_player (swap_value v) = other <$> as_player v.
Proof. by destruct v. Qed.

Lemma line_test_swap b l : line_test (swap_board b) l = line_test b l.
Proof.
  destruct l as [[i j] k]. unfold line_test.
  by rewrite !get_swap_board, truthy_swap, !strict_eq_swap.
Qed.

Lemma line_of_swap b w l :
  line_of (swap_board b) (other w) l = line_of b w l.
Proof.
  destruct l as [[i j] k]. unfold line_of. rewrite !get_swap_board.
  change (JMark (other w)) with (swap_value (JMark w)).
  by rewrite !strict_eq_swap.
Qed.

Lemma calculateWinner_loop_swap lines b :
  calculateWinner_loop lines (swap_board b)
  = other <$> calculateWinner_loop lines b.
Proof.
  induction lines as [|l rest IH]; [done|]. cbn [calculateWinner_loop].
  rewrite line_test_swap, get_swap_board, as_player_swap, IH.
  by destruct (line_test b l).
Qed.

Lemma isBoardFull_swap b : isBoardFull (swap_board b) = isBoardFull b.
Proof.
  unfold isBoardFull, JS.every, swap_board. cbn [JS.elems].
  induction (JS.elems b) as [|c cells IH]; [done|].
  cbn [fmap list_fmap forallb]. rewrite <- IH. f_equal.
  by destruct c.
Qed.

Lemma gameOver_swap s : gameOver (swap_state s) = gameOver s.
Proof.
  unfold gameOver, isDraw, winner, calculateWinner, swap_state. cbn [board].
  rewrite calculateWinner_loop_swap, isBoardFull_swap.
  by destruct (calculateWinner_loop WINNING_LINES (board s)).
Qed.

Lemma set_swap b i v :
  JS.set (swap_board b) i (swap_value v) = swap_board (JS.set b i v).
Proof.
  unfold JS.set, JS.length, swap_board. cbn [JS.elems JS.props].
  rewrite length_fmap.
  destruct (JS.is_array_index i); [case_bool_decide|]; cbn [JS.elems JS.props].
  - by rewrite list_fmap_insert.
  - by rewrite !fmap_app, fmap_replicate.
  - by rewrite fmap_insert.
Qed.

Lemma spread_swap b : JS.spread (swap_board b) = swap_board (JS.spread b).
Proof. unfold JS.spread, swap_board. cbn [JS.elems JS.props]. by rewrite fmap_empty. Qed.

Lemma find_ext {A} (f g : A → bool) (l : list A) :
  (∀ x, f x = g x) → List.find f l = List.find g l.
Proof. intros H. induction l as [|x l IH]; simpl; [done|]. by rewrite H, IH. Qed.

Lemma handlePress_swap s i :
  handlePress (swap_state s) i = swap_state (handlePress s i).
Proof.
  unfold handlePress. rewrite gameOver_swap.
  replace (JS.get (board (swap_state s)) i)
    with (swap_value (JS.get (board s) i)) by (symmetry; apply get_swap_board).
  rewrite truthy_swap.
  destruct (gameOver s || JS.truthy (JS.get (board s) i)); [done|].
  assert (nextPlayer (swap_state s) = other (nextPlayer s)) as ->
    by (unfold nextPlayer, swap_state; cbn [isXNext]; by destruct (isXNext s)).
  replace (board (swap_state s)) with (swap_board (board s)) by done.
  change (JMark (other (nextPlayer s))) with (swap_value (JMark (nextPlayer s))).
  rewrite spread_swap, set_swap.
  unfold calculateWinner. rewrite calculateWinner_loop_swap.
  unfold swap_state. cbn [board isXNext winningCells]. f_equal.
  destruct (calculateWinner_loop WINNING_LINES _) as [w|]; [|done].
  cbn [fmap option_fmap option_map]. f_equal.
  apply find_ext. intros l. apply line_of_swap.
Qed.

End Symmetry.

(** X10: calculateWinner and isBoardFull treat the two markers alike: on
    the board with X and O exchanged in every slot, calculateWinner
    returns the other player (or none as before) and isBoardFull returns
    what it returned. *)
Theorem calculateWinner_swap (b : Board) :
  calculateWinner (swap_board b) = other <$> calculateWinner b
  ∧ isBoardFull (swap_board b) = isBoardFull b.
Proof.
  split; [apply calculateWinner_loop_swap | apply isBoardFull_swap].
Qed.

(** X11: the game is the same for both players.  Exchanging X and O on
    the board and in the turn flag commutes with every sequence of taps on
    any integers: the taps find the same cells free, end the game at the
    same tap and leave the same winningCells. *)
Theorem play_swap (s : GameState) (taps : list Z) :
  play (swap_state s) taps = swap_state (play s taps).
Proof.
  revert s. induction taps as [|i taps IH]; intros s; [done|].
  by rewrite !play_cons, handlePress_swap, IH.
Qed.

(* ===================================================================== *)
(* Properties of the rendering                                            *)
(* ===================================================================== *)

Section Rendering.

Lemma includes_true l i : View.includes l i = true ↔ i ∈ l.
Proof.
  unfold View.includes. rewrite existsb_exists. split.
  - intros (x & Hin & ->%Z.eqb_eq). by apply list_elem_of_In.
  - intros Hin. exists i. split; [by apply list_elem_of_In|apply Z.eqb_refl].
Qed.

Lemma color_of_mark p :
  View.color (JMark p)
  = if bool_decide (p = X) then COLORS.magenta else COLORS.cyan.
Proof. by destruct p. Qed.

Lemma handlePress_placed_ne s i :
  gameOver s = false → JS.truthy (JS.get (board s) i) = false →
  handlePress s i ≠ s.
Proof.
  intros Hg Ht H. rewrite handlePress_placed in H by done.
  apply (f_equal isXNext) in H. cbn [isXNext] in H. by destruct (isXNext s).
Qed.

End Rendering.

(** X12: the cell's disabled flag agrees with the guard of handlePress.
    On a board of the declared type and for every index in 0..8, GameCell
    disables the touch exactly when handlePress at that index would return
    the state unchanged. *)
Theorem cell_disabled_iff_tap_ignored (s : GameState) (i : Z) :
  well_typed (board s) → in_range i →
  View.touchDisabled
    (View.GameCell (View.cellProps s (JS.get (board s) i) i)) = true
  ↔ handlePress s i = s.
Proof.
  intros Hwt Hi. cbn [View.GameCell View.cellProps View.touchDisabled
                      View.disabled View.value].
  destruct (gameOver s) eqn:Hg.
  - split; [intros _; apply handlePress_blocked; auto | done].
  - rewrite orb_false_l, negb_true_iff, strict_eq_false.
    destruct (well_typed_cell _ _ Hwt Hi) as [E|[p E]]; rewrite E.
    + split; [done|]. intros H. exfalso.
      eapply handlePress_placed_ne; [exact Hg| |exact H]. by rewrite E.
    + split; [|done]. intros _. apply handlePress_blocked. right. by rewrite E.
Qed.

Lemma cell_disabled_iff_tap_ignored_witness :
  View.touchDisabled
    (View.GameCell
       (View.cellProps (play initialState [4])
          (JS.get (board (play initialState [4])) 4) 4)) = true
  ↔ handlePress (play initialState [4]) 4 = play initialState [4].
Proof.
  apply cell_disabled_iff_tap_ignored.
  - split_and!; [evaluate | | evaluate].
    vm_compute. repeat constructor; discriminate.
  - unfold in_range; lia.
Defined.

(** X13: only the winner's cells are highlighted.  In every reachable
    state, a cell drawn with the winning style holds the marker of the
    winner on display, shows that marker as its text, and is drawn in the
    colour of the status line. *)
Theorem highlighted_cell_shows_winner (s : GameState) (i : Z) :
  reachable s →
  let view := View.GameCell (View.cellProps s (JS.get (board s) i) i) in
  View.cellWinning view = true →
  ∃ p, winner s = Some p
       ∧ JS.get (board s) i = JMark p
       ∧ View.text view = View.marker p
       ∧ View.textColor view = View.statusColor s.
Proof.
  intros Hr view. subst view.
  cbn [View.GameCell View.cellProps View.cellWinning View.isWinning
       View.text View.textColor View.value].
  rewrite includes_true. intros Hin.
  pose proof (cells_match_winner_reachable _ (reachable_reachable_any _ Hr)) as H.
  unfold cells_match_winner in H. unfold View.statusColor.
  destruct (winner s) as [p|].
  - destruct H as ([[a b] c] & _ & Hc & Ha & Hb & Hcc).
    rewrite Hc in Hin. cbn [line_or_empty] in Hin.
    assert (JS.get (board s) i = JMark p) as E.
    { repeat (apply elem_of_cons in Hin as [->|Hin]; [done|]).
      by apply elem_of_nil in Hin. }
    exists p. rewrite E. split_and!; [done..|]. apply color_of_mark.
  - rewrite H in Hin. by apply elem_of_nil in Hin.
Qed.

Lemma highlighted_cell_shows_winner_witness :
  let s := play initialState [0; 1; 3; 4; 6] in
  let view := View.GameCell (View.cellProps s (JS.get (board s) 3) 3) in
  ∃ p, winner s = Some p
       ∧ JS.get (board s) 3 = JMark p
       ∧ View.text view = View.marker p
       ∧ View.textColor view = View.statusColor s.
Proof.
  apply (highlighted_cell_shows_winner (play initialState [0; 1; 3; 4; 6]) 3).
  - apply reachable_play; [constructor|].
    repeat constructor; unfold in_range; lia.
  - evaluate.
Defined.

(** X14: while the game is on, the status line announces the next mark.
    For every state that is not over and every integer index whose slot
    is free, the cell drawn at the index after handlePress has the marker
    named in the status text before the tap as its text, and the status
    colour before the tap as its colour. *)
Theorem status_announces_next_mark (s : GameState) (i : Z) :
  gameOver s = false → JS.truthy (JS.get (board s) i) = false →
  let s' := handlePress s i in
  let view := View.GameCell (View.cellProps s' (JS.get (board s') i) i) in
  View.statusText s = "PLAYER " +:+ View.text view +:+ " — YOUR TURN"
  ∧ View.textColor view = View.statusColor s.
Proof.
  intros Hg Ht s' view. subst view s'.
  rewrite handlePress_placed by done. cbn [board].
  rewrite get_set_eq.
  cbn [View.GameCell View.cellProps View.text View.textColor View.value].
  apply gameOver_false in Hg as [Hw Hd].
  unfold View.statusText, View.statusColor, nextPlayer. rewrite Hw, Hd.
  by destruct (isXNext s).
Qed.

Lemma status_announces_next_mark_witness :
  let s := play initialState [4] in
  let s' := handlePress s 0 in
  let view := View.GameCell (View.cellProps s' (JS.get (board s') 0) 0) in
  View.statusText s = "PLAYER " +:+ View.text view +:+ " — YOUR TURN"
  ∧ View.textColor view = View.statusColor s.
Proof.
  apply (status_announces_next_mark (play initialState [4]) 0); evaluate.
Defined.

(** X15: the status text alone tells the phase of the game.  Two states
    with the same status text have the same winner and the same draw
    flag, and when the game is on in one of them the same player is to
    move in both. *)
Theorem statusText_determines_phase (s t : GameState) :
  View.statusText s = View.statusText t →
  winner s = winner t
  ∧ isDraw s = isDraw t
  ∧ (gameOver s = false → nextPlayer s = nextPlayer t).
Proof.
  unfold View.statusText, gameOver, isDraw, nextPlayer.
  destruct (winner s) as [[]|], (winner t) as [[]|];
    destruct (isBoardFull (board s)), (isBoardFull (board t));
    destruct (isXNext s), (isXNext t);
    cbn; intros H; try discriminate H; done.
Qed.

Lemma statusText_determines_phase_witness :
  let s := play initialState [4; 0] in
  let t := play initialState [8; 2] in
  winner s = winner t
  ∧ isDraw s = isDraw t
  ∧ (gameOver s = false → nextPlayer s = nextPlayer t).
Proof.
  apply (statusText_determines_phase
           (play initialState [4; 0]) (play initialState [8; 2])).
  evaluate.
Defined.

Section NineCells.

Lemma handlePress_cell s i j :
  in_range j →
  JS.get (board (handlePress s i)) j = JS.get (board s) j
  ∨ JS.get (board (handlePress s i)) j = JMark (nextPlayer s).
Proof.
  intros Hj. unfold handlePress.
  destruct (gameOver s || JS.truthy (JS.get (board s) i)); [by left|].
  cbn [board]. destruct (decide (i = j)) as [->|Hne].
  - right. apply get_set_eq.
  - left. rewrite get_set_ne by done.
    apply get_spread. by apply in_range_array_index.
Qed.

End NineCells.

(** X16: taps outside 0..8 never spoil the nine cells.  In every state
    reached by handlePress on arbitrary integers and by resetGame, each of
    the cells 0..8 reads null or a marker, never undefined. *)
Theorem nine_cells_never_undefined (s : GameState) (j : Z) :
  reachable_any s → in_range j →
  JS.get (board s) j = JNull ∨ ∃ p, JS.get (board s) j = JMark p.
Proof.
  intros Hr Hj. induction Hr as [|s i _ IH|s _ _].
  - left. by apply get_EMPTY_BOARD.
  - destruct (handlePress_cell s i j Hj) as [-> | ->]; [exact IH|eauto].
  - left. by apply get_EMPTY_BOARD.
Qed.

Lemma nine_cells_never_undefined_witness :
  let s := play initialState [12; -3; 4; 9] in
  JS.get (board s) 4 = JNull ∨ ∃ p, JS.get (board s) 4 = JMark p.
Proof.
  apply (nine_cells_never_undefined (play initialState [12; -3; 4; 9]) 4).
  - unfold play. simpl fold_left. repeat constructor.
  - unfold in_range; lia.
Defined.
